(** * A set-backed multimap: shallow embedding of package [setmultimap]

    The Go source keeps a [map[K]Set[V]] where [Set[V]] is [map[V]struct{}].
    The native map is embedded as stdpp's [gmap], the value set as [gset].
    Methods with a pointer receiver that mutate the multimap become functions
    returning the new multimap.  No set ever escapes the structure (readers
    copy into fresh slices), so a functional update of the set stored under a
    key is what the in-place update of the shared set does.

    Go leaves the order of [range] over a map unspecified.  The embedding
    iterates in the order of [map_to_list] and [elements]; every statement
    below is about lengths, membership or set equality, none of which depends
    on that order.

    [int] results ([Size], [len]) are counts of live map entries and are
    embedded as [nat]: they cannot reach the 64-bit bound.

    Slices are lists.  [make([]T, n)] is [n] copies of the zero value of [T]
    (the [Inhabited] instance), and an indexed store outside the slice
    panics: stores return [option], [None] standing for the panic. *)

From stdpp Require Import gmap strings list fin_maps.
From Stdlib Require Import ZArith.

(** ** Package [multimap]: the entry record *)
Module multimap.

Record Entry (K V : Type) : Type := mkEntry { Key : K; Value : V }.
Arguments mkEntry {K V} _ _.
Arguments Key {K V} _.
Arguments Value {K V} _.

End multimap.

(** ** Package [setmultimap] *)
Module setmultimap.

(** *** Slices and range loops *)
Section slices.
Context {A : Type}.

(** [make([]A, n)] *)
Definition make `{Inhabited A} (n : nat) : list A := replicate n inhabitant.

(** [s[i] = x], panicking when [i] is out of range *)
Definition assign (s : list A) (i : nat) (x : A) : option (list A) :=
  if decide (i < length s) then Some (<[i:=x]> s) else None.

(** The loop body [s[count] = x; count++] on the pair (slice, count) *)
Definition assign_next (st : list A * nat) (x : A) : option (list A * nat) :=
  s' ← assign st.1 st.2 x; Some (s', S st.2).
End slices.

(** [for x := range xs { body }] where the body may panic *)
Fixpoint range_loop {S X : Type} (body : S → X → option S) (st : S) (xs : list X)
    : option S :=
  match xs with
  | [] => Some st
  | x :: xs' => st' ← body st x; range_loop body st' xs'
  end.

Section setmultimap.
Context `{Countable K, Countable V}.
Context `{!Inhabited K, !Inhabited V}.

(** [type MultiMap struct { m map[K]Set[V] }] *)
Record MultiMap : Type := mkMultiMap { m : gmap K (gset V) }.

(** The two results of a Go map read [set, found := m.m[key]]: a missing
    key reads as the nil set, which behaves as the empty set. *)
Definition read_set (mm : MultiMap) (key : K) : gset V := default ∅ (m mm !! key).
Definition read_found (mm : MultiMap) (key : K) : bool :=
  bool_decide (is_Some (m mm !! key)).

Definition New : MultiMap := mkMultiMap ∅.

Definition Get (mm : MultiMap) (key : K) : option (list V * bool) :=
  let set := read_set mm key in
  let found := read_found mm key in
  st ← range_loop assign_next (make (size set), 0) (elements set);
  Some (st.1, found).

Definition Put (mm : MultiMap) (key : K) (value : V) : MultiMap :=
  match m mm !! key with
  | Some set => mkMultiMap (<[key := {[value]} ∪ set]> (m mm))
  | None => mkMultiMap (<[key := {[value]}]> (m mm))
  end.

Definition PutAll (mm : MultiMap) (key : K) (values : list V) : MultiMap :=
  foldl (λ mm' value, Put mm' key value) mm values.

Definition Contains (mm : MultiMap) (key : K) (value : V) : bool :=
  let set := read_set mm key in
  let found := read_found mm key in
  if decide (value ∈ set) then found else false.

Definition ContainsKey (mm : MultiMap) (key : K) : bool := read_found mm key.

(** The scan with its early return *)
Fixpoint ContainsValue_loop (l : list (K * gset V)) (value : V) : bool :=
  match l with
  | [] => false
  | (_, set) :: l' =>
      if decide (value ∈ set) then true else ContainsValue_loop l' value
  end.

Definition ContainsValue (mm : MultiMap) (value : V) : bool :=
  ContainsValue_loop (map_to_list (m mm)) value.

Definition Remove (mm : MultiMap) (key : K) (value : V) : MultiMap :=
  let mm1 :=
    match m mm !! key with
    | Some set => mkMultiMap (<[key := set ∖ {[value]}]> (m mm))
    | None => mm
    end in
  if decide (size (read_set mm1 key) = 0)
  then mkMultiMap (delete key (m mm1))
  else mm1.

Definition RemoveAll (mm : MultiMap) (key : K) : MultiMap :=
  mkMultiMap (delete key (m mm)).

Definition Size (mm : MultiMap) : nat :=
  foldl (λ sz p, sz + size p.2) 0 (map_to_list (m mm)).

Definition Empty (mm : MultiMap) : bool := bool_decide (Size mm = 0).

Definition Keys (mm : MultiMap) : option (list K) :=
  st ← range_loop
         (λ st p, range_loop (λ st' _, assign_next st' p.1) st (elements p.2))
         (make (Size mm), 0) (map_to_list (m mm));
  Some st.1.

Definition KeySet (mm : MultiMap) : option (list K) :=
  st ← range_loop (λ st p, assign_next st p.1)
         (make (size (m mm)), 0) (map_to_list (m mm));
  Some st.1.

Definition Values (mm : MultiMap) : option (list V) :=
  st ← range_loop
         (λ st p, range_loop assign_next st (elements p.2))
         (make (Size mm), 0) (map_to_list (m mm));
  Some st.1.

(** The zero value of [multimap.Entry[K, V]] *)
Global Instance Entry_inhabited : Inhabited (multimap.Entry K V) :=
  populate (multimap.mkEntry inhabitant inhabitant).

Definition Entries (mm : MultiMap) : option (list (multimap.Entry K V)) :=
  st ← range_loop
         (λ st p,
            range_loop (λ st' value, assign_next st' (multimap.mkEntry p.1 value))
              st (elements p.2))
         (make (Size mm), 0) (map_to_list (m mm));
  Some st.1.

Definition Clear (mm : MultiMap) : MultiMap := mkMultiMap ∅.

(** *** States a client can build

    One constructor per public mutating method, starting from [New]. *)
Inductive reachable : MultiMap → Prop :=
| reach_New : reachable New
| reach_Put mm key value : reachable mm → reachable (Put mm key value)
| reach_PutAll mm key values : reachable mm → reachable (PutAll mm key values)
| reach_Remove mm key value : reachable mm → reachable (Remove mm key value)
| reach_RemoveAll mm key : reachable mm → reachable (RemoveAll mm key)
| reach_Clear mm : reachable mm → reachable (Clear mm).

(** The data-model invariant: no key is stored with an empty value set. *)
Definition no_empty_set (mm : MultiMap) : Prop :=
  ∀ key set, m mm !! key = Some set → set ≠ ∅.

(** The flattened contents, in iteration order *)
Definition pairs_of (mm : MultiMap) : list (K * V) :=
  p ← map_to_list (m mm); (λ value, (p.1, value)) <$> elements p.2.

End setmultimap.

Arguments MultiMap K {_ _} V {_ _}.
Arguments New {K _ _ V _ _}.

(** ** Filling a slice by a counting loop *)
Section fill.
Context {A : Type}.
Implicit Types (pre suf xs : list A).

Lemma assign_next_middle pre suf x y :
  assign_next (pre ++ y :: suf, length pre) x
  = Some ((pre ++ [x]) ++ suf, length (pre ++ [x])).
Proof.
  unfold assign_next, assign; simpl.
  rewrite decide_True by (rewrite length_app; simpl; lia).
  simpl. rewrite length_app, Nat.add_1_r.
  replace (length pre) with (length pre + 0) at 1 by lia.
  rewrite insert_app_r. simpl. by rewrite <- app_assoc.
Qed.

Lemma assign_next_full pre x : assign_next (pre, length pre) x = None.
Proof.
  unfold assign_next, assign; simpl. by rewrite decide_False by lia.
Qed.

(** A loop of stores starting at the end of [pre] writes [xs] over the
    first [length xs] cells of [suf], provided they exist. *)
Lemma range_loop_fill xs : ∀ pre suf,
  length xs ≤ length suf →
  range_loop assign_next (pre ++ suf, length pre) xs
  = Some (pre ++ xs ++ drop (length xs) suf, length pre + length xs).
Proof.
  induction xs as [|x xs IH]; intros pre suf Hlen; simpl.
  - by rewrite Nat.add_0_r.
  - destruct suf as [|y suf]; simpl in Hlen; [lia|].
    rewrite assign_next_middle. simpl.
    rewrite IH by lia.
    rewrite <- app_assoc, length_app. simpl.
    do 2 f_equal. lia.
Qed.

(** With too little room the loop panics. *)
Lemma range_loop_overflow xs : ∀ pre suf,
  length suf < length xs →
  range_loop assign_next (pre ++ suf, length pre) xs = None.
Proof.
  induction xs as [|x xs IH]; intros pre suf Hlen; simpl in *; [lia|].
  destruct suf as [|y suf].
  - by rewrite app_nil_r, assign_next_full.
  - rewrite assign_next_middle. simpl. apply IH. simpl in Hlen. lia.
Qed.

(** The body may compute the stored element from the loop variable. *)
Lemma range_loop_map {X} (f : X → A) (l : list X) : ∀ st,
  range_loop (λ st' x, assign_next st' (f x)) st l
  = range_loop assign_next st (f <$> l).
Proof.
  induction l as [|x l IH]; intros st; simpl; [done|].
  destruct (assign_next st (f x)); simpl; auto.
Qed.

(** Two nested loops store the concatenation of the inner ranges. *)
Lemma range_loop_nested {X} (g : X → list A) (l : list X) : ∀ st,
  range_loop (λ st' x, range_loop assign_next st' (g x)) st l
  = range_loop assign_next st (x ← l; g x).
Proof.
  induction l as [|x l IH]; intros st; simpl; [done|].
  revert st. induction (g x) as [|a ys IHy]; intros st; simpl.
  - apply IH.
  - destruct (assign_next st a); simpl; auto.
Qed.

(** A fresh slice of exactly the right length ends up holding [xs]. *)
Lemma range_loop_make `{Inhabited A} xs :
  range_loop assign_next (make (length xs), 0) xs = Some (xs, length xs).
Proof.
  pose proof (range_loop_fill xs [] (make (length xs))) as Hfill.
  simpl in Hfill. rewrite Hfill by (unfold make; by rewrite length_replicate).
  unfold make. rewrite drop_replicate, Nat.sub_diag. simpl.
  by rewrite app_nil_r.
Qed.
End fill.

(** ** Facts about the operations *)
Section facts.
Context `{CountK : Countable K, CountV : Countable V}.
Context `{!Inhabited K, !Inhabited V}.
Implicit Types (mm : MultiMap K V) (key : K) (value : V) (set : gset V).

Lemma MultiMap_eq mm1 mm2 : m mm1 = m mm2 → mm1 = mm2.
Proof. destruct mm1, mm2; simpl; congruence. Qed.

(** *** Reading the map *)

Lemma read_found_true mm key : read_found mm key = true ↔ is_Some (m mm !! key).
Proof. unfold read_found. apply bool_decide_eq_true. Qed.

Lemma read_found_false mm key : read_found mm key = false ↔ m mm !! key = None.
Proof.
  unfold read_found. rewrite bool_decide_eq_false. symmetry. apply eq_None_not_Some.
Qed.

Lemma read_set_Some mm key set : m mm !! key = Some set → read_set mm key = set.
Proof. unfold read_set. by intros ->. Qed.

Lemma read_set_None mm key : m mm !! key = None → read_set mm key = ∅.
Proof. unfold read_set. by intros ->. Qed.

(** *** [Size] as a sum *)

Lemma Size_loop_sum (l : list (K * gset V)) : ∀ a,
  foldl (λ sz p, sz + size p.2) a l = a + sum_list_with (λ p, size p.2) l.
Proof.
  induction l as [|p l IH]; intros a; simpl; [lia|]. rewrite IH. lia.
Qed.

Lemma Size_sum mm : Size mm = sum_list_with (λ p, size p.2) (map_to_list (m mm)).
Proof. unfold Size. by rewrite Size_loop_sum. Qed.

Lemma Size_insert_fresh (g : gmap K (gset V)) key set :
  g !! key = None →
  Size (mkMultiMap (<[key:=set]> g)) = size set + Size (mkMultiMap g).
Proof.
  intros Hnone. rewrite !Size_sum. simpl.
  by rewrite (map_to_list_insert g key set Hnone).
Qed.

Lemma Size_delete (g : gmap K (gset V)) key set :
  g !! key = Some set →
  Size (mkMultiMap g) = size set + Size (mkMultiMap (delete key g)).
Proof.
  intros Hsome. rewrite !Size_sum. simpl.
  by rewrite <- (map_to_list_delete g key set Hsome).
Qed.

Lemma Size_insert_over (g : gmap K (gset V)) key set set' :
  g !! key = Some set →
  Size (mkMultiMap (<[key:=set']> g)) + size set = Size (mkMultiMap g) + size set'.
Proof.
  intros Hsome. rewrite (Size_delete g key set Hsome).
  rewrite <- (insert_delete_eq g key set').
  rewrite Size_insert_fresh by apply lookup_delete_eq. lia.
Qed.

(** *** What [Put] and [Remove] store *)

Lemma Put_lookup_eq mm key value :
  m (Put mm key value) !! key = Some ({[value]} ∪ read_set mm key).
Proof.
  unfold Put, read_set. destruct (m mm !! key) as [set|]; simpl.
  - by rewrite lookup_insert_eq.
  - by rewrite lookup_insert_eq, union_empty_r_L.
Qed.

Lemma Put_lookup_ne mm key value key' :
  key' ≠ key → m (Put mm key value) !! key' = m mm !! key'.
Proof.
  intros Hne. unfold Put.
  destruct (m mm !! key); simpl; by rewrite lookup_insert_ne.
Qed.

Lemma Put_m mm key value :
  m (Put mm key value) = <[key := {[value]} ∪ read_set mm key]> (m mm).
Proof.
  apply map_eq. intros key'. destruct (decide (key' = key)) as [->|Hne].
  - by rewrite Put_lookup_eq, lookup_insert_eq.
  - by rewrite Put_lookup_ne, lookup_insert_ne.
Qed.

Lemma Remove_lookup_eq mm key value :
  m (Remove mm key value) !! key =
    if decide (read_set mm key ∖ {[value]} = ∅) then None
    else Some (read_set mm key ∖ {[value]}).
Proof.
  unfold Remove. destruct (m mm !! key) as [set|] eqn:Hk.
  - rewrite (read_set_Some mm key set Hk).
    rewrite (read_set_Some (mkMultiMap _) key (set ∖ {[value]}))
      by apply lookup_insert_eq.
    destruct (decide (size (set ∖ {[value]}) = 0)) as [Hz|Hnz]; cbn [m].
    + rewrite lookup_delete_eq. apply size_empty_iff in Hz.
      by rewrite decide_True by (by apply leibniz_equiv).
    + rewrite lookup_insert_eq. rewrite decide_False; [done|].
      intros Hempty. apply Hnz. rewrite Hempty. apply size_empty.
  - rewrite (read_set_None mm key Hk), size_empty.
    rewrite decide_True by done. cbn [m]. rewrite lookup_delete_eq.
    by rewrite decide_True by apply difference_disjoint_L, disjoint_empty_l.
Qed.

Lemma Remove_lookup_ne mm key value key' :
  key' ≠ key → m (Remove mm key value) !! key' = m mm !! key'.
Proof.
  intros Hne. unfold Remove.
  destruct (m mm !! key) as [set|]; simpl;
    destruct (decide _); simpl;
    rewrite ?lookup_delete_ne, ?lookup_insert_ne by done; done.
Qed.

Lemma PutAll_cons mm key value values :
  PutAll mm key (value :: values) = PutAll (Put mm key value) key values.
Proof. done. Qed.

Lemma PutAll_lookup_ne mm key values key' :
  key' ≠ key → m (PutAll mm key values) !! key' = m mm !! key'.
Proof.
  intros Hne. revert mm. induction values as [|value values IH]; intros mm.
  - done.
  - rewrite PutAll_cons, IH. by apply Put_lookup_ne.
Qed.

(** *** The invariant is kept by every mutating method *)

Lemma New_no_empty_set : no_empty_set (New : MultiMap K V).
Proof. intros key set. unfold New. simpl. by rewrite lookup_empty. Qed.

Lemma Put_no_empty_set mm key value :
  no_empty_set mm → no_empty_set (Put mm key value).
Proof.
  intros Hinv key' set. destruct (decide (key' = key)) as [->|Hne].
  - rewrite Put_lookup_eq. intros [= <-]. set_solver.
  - rewrite Put_lookup_ne by done. apply Hinv.
Qed.

Lemma PutAll_no_empty_set mm key values :
  no_empty_set mm → no_empty_set (PutAll mm key values).
Proof.
  revert mm. induction values as [|value values IH]; intros mm Hinv; [done|].
  rewrite PutAll_cons. by apply IH, Put_no_empty_set.
Qed.

Lemma Remove_no_empty_set mm key value :
  no_empty_set mm → no_empty_set (Remove mm key value).
Proof.
  intros Hinv key' set. destruct (decide (key' = key)) as [->|Hne].
  - rewrite Remove_lookup_eq. case_decide; [done|]. by intros [= <-].
  - rewrite Remove_lookup_ne by done. apply Hinv.
Qed.

Lemma RemoveAll_no_empty_set mm key :
  no_empty_set mm → no_empty_set (RemoveAll mm key).
Proof.
  intros Hinv key' set. unfold RemoveAll. simpl.
  rewrite lookup_delete_Some. intros [_ Hk]. by eapply Hinv.
Qed.

Lemma reachable_no_empty_set mm : reachable mm → no_empty_set mm.
Proof.
  induction 1;
    eauto using New_no_empty_set, Put_no_empty_set, PutAll_no_empty_set,
      Remove_no_empty_set, RemoveAll_no_empty_set.
Qed.

(** *** [KeySet] and [Get] never panic *)

Lemma KeySet_eq mm : KeySet mm = Some ((map_to_list (m mm)).*1).
Proof.
  unfold KeySet. rewrite range_loop_map.
  rewrite <- (length_map_to_list (m mm)), <- (length_fmap fst).
  by rewrite range_loop_make.
Qed.

Lemma Get_eq mm key :
  Get mm key = Some (elements (read_set mm key), read_found mm key).
Proof.
  unfold Get. cbv zeta. unfold size, set_size. simpl.
  by rewrite range_loop_make.
Qed.

Lemma Contains_true mm key value :
  Contains mm key value = true ↔ ∃ set, m mm !! key = Some set ∧ value ∈ set.
Proof.
  unfold Contains, read_set, read_found.
  destruct (m mm !! key) as [set|]; simpl.
  - case_decide; split.
    + intros _. eauto.
    + intros _. first [done | apply bool_decide_eq_true; eauto].
    + done.
    + intros (set' & [= <-] & Hin). done.
  - rewrite decide_False by apply not_elem_of_empty.
    split; [done|]. by intros (? & ? & _).
Qed.

Lemma Contains_false mm key value :
  Contains mm key value = false ↔ value ∉ read_set mm key.
Proof.
  rewrite <- not_true_iff_false, Contains_true. unfold read_set.
  destruct (m mm !! key) as [set|]; simpl.
  - split.
    + intros Hn Hin. apply Hn. eauto.
    + intros Hn (set' & [= <-] & Hin). done.
  - split; [intros _; apply not_elem_of_empty|]. by intros _ (? & ? & _).
Qed.

Lemma elem_of_KeySet_list mm key :
  key ∈ (map_to_list (m mm)).*1 ↔ is_Some (m mm !! key).
Proof.
  rewrite list_elem_of_fmap. split.
  - intros ([key' set] & -> & Hin). apply elem_of_map_to_list in Hin. eauto.
  - intros [set Hset]. exists (key, set). split; [done|].
    by apply elem_of_map_to_list.
Qed.

Lemma has_value mm key :
  no_empty_set mm → is_Some (m mm !! key) → ∃ value, Contains mm key value = true.
Proof.
  intros Hinv [set Hset]. destruct (set_choose_L set) as [value Hin].
  - by eapply Hinv.
  - exists value. apply Contains_true. eauto.
Qed.

(** *** The claims about single operations *)

(** C1: in every state reachable from the empty multimap by Put, PutAll,
    Remove, RemoveAll and Clear, every stored key has a non-empty value set;
    so every key reported by ContainsKey or listed by KeySet has a value. *)
Theorem C1_reachable_keys_have_values mm :
  reachable mm →
  (∀ key set, m mm !! key = Some set → set ≠ ∅) ∧
  (∀ key, ContainsKey mm key = true → ∃ value, Contains mm key value = true) ∧
  (∃ keys, KeySet mm = Some keys ∧
     ∀ key, key ∈ keys → ∃ value, Contains mm key value = true).
Proof.
  intros Hreach. pose proof (reachable_no_empty_set mm Hreach) as Hinv.
  split; [exact Hinv|]. split.
  - intros key Hfound. apply has_value; [done|]. by apply read_found_true.
  - exists ((map_to_list (m mm)).*1). split; [apply KeySet_eq|].
    intros key Hin. apply has_value; [done|]. by apply elem_of_KeySet_list.
Qed.

(** C2: after Put(k, v) the pair is contained; Size is unchanged when the
    pair was already there (the call is then a no-op, and a repeated Put
    changes nothing) and grows by exactly one otherwise. *)
Theorem C2_Put_contains_and_size mm key value :
  Contains (Put mm key value) key value = true ∧
  Size (Put mm key value)
    = (if Contains mm key value then Size mm else S (Size mm)) ∧
  (Contains mm key value = true → Put mm key value = mm) ∧
  Put (Put mm key value) key value = Put mm key value.
Proof.
  assert (Hnoop : ∀ mm', Contains mm' key value = true → Put mm' key value = mm').
  { intros mm' (set & Hset & Hin)%Contains_true. apply MultiMap_eq.
    rewrite Put_m, (read_set_Some _ _ _ Hset).
    rewrite subseteq_union_1_L by (by apply singleton_subseteq_l).
    by apply insert_id. }
  assert (Hin : Contains (Put mm key value) key value = true).
  { apply Contains_true. eexists. split; [apply Put_lookup_eq|].
    apply elem_of_union_l, elem_of_singleton. done. }
  split; [exact Hin|]. split; [|split; [apply Hnoop | by apply Hnoop]].
  destruct (Contains mm key value) eqn:Hc.
  - by rewrite Hnoop.
  - apply Contains_false in Hc. destruct mm as [g]. unfold Put, read_set in *.
    cbn [m] in *. destruct (g !! key) as [set|] eqn:Hk; cbn [default] in Hc.
    + pose proof (Size_insert_over g key set ({[value]} ∪ set) Hk) as Hsz.
      rewrite size_union, size_singleton in Hsz
        by (by apply disjoint_singleton_l).
      lia.
    + rewrite Size_insert_fresh, size_singleton by done. done.
Qed.

(** C3 (as amended): Put(k, v) followed by Remove(k, v) leaves the pair
    absent, and k is then a key exactly when it had a value other than v
    before.  So ContainsKey(k) is back at its prior value whenever the pair
    was not stored before the Put (in a reachable state the two calls then
    restore the whole multimap). *)
Theorem C3_Put_then_Remove mm key value :
  Contains (Remove (Put mm key value) key value) key value = false ∧
  (ContainsKey (Remove (Put mm key value) key value) key = true
     ↔ ∃ value', value' ≠ value ∧ Contains mm key value' = true) ∧
  (reachable mm → Contains mm key value = false →
     ContainsKey (Remove (Put mm key value) key value) key = ContainsKey mm key
     ∧ Remove (Put mm key value) key value = mm).
Proof.
  pose proof (Remove_lookup_eq (Put mm key value) key value) as Hlk.
  rewrite (read_set_Some _ _ _ (Put_lookup_eq mm key value)) in Hlk.
  assert (Hdiff : ({[value]} ∪ read_set mm key) ∖ {[value]}
                  = read_set mm key ∖ {[value]}).
  { apply set_eq. intros x.
    rewrite !elem_of_difference, elem_of_union, elem_of_singleton. tauto. }
  rewrite Hdiff in Hlk. clear Hdiff.
  split; [|split].
  - apply Contains_false. unfold read_set at 1. rewrite Hlk.
    case_decide; cbn [default id]; [apply not_elem_of_empty|].
    intros [_ Hn]%elem_of_difference. apply Hn. by apply elem_of_singleton.
  - unfold ContainsKey. rewrite read_found_true, Hlk. split.
    + case_decide as Hne; [by intros [? ?]|]. intros _.
      destruct (set_choose_L _ Hne) as [value' Hin].
      exists value'. apply elem_of_difference in Hin as [Hin Hnv].
      split; [set_solver|].
      apply Contains_true. unfold read_set in Hin.
      destruct (m mm !! key) as [set|]; [eauto|set_solver].
    + intros (value' & Hnv & (set & Hset & Hin)%Contains_true).
      rewrite (read_set_Some _ _ _ Hset).
      rewrite decide_False by set_solver. eauto.
  - intros Hreach Hc. apply Contains_false in Hc.
    assert (Hsame : Remove (Put mm key value) key value = mm).
    { apply MultiMap_eq, map_eq. intros key'.
      destruct (decide (key' = key)) as [->|Hne].
      - rewrite Hlk. rewrite difference_disjoint_L by set_solver.
        unfold read_set in *. destruct (m mm !! key) as [set|] eqn:Hk.
        + cbn [default]. rewrite decide_False; [done|].
          by eapply (reachable_no_empty_set mm Hreach).
        + cbn [default]. by rewrite decide_True.
      - by rewrite Remove_lookup_ne, Put_lookup_ne. }
    by rewrite Hsame.
Qed.

(** C8: Put(k, v) and Remove(k, v) leave every other key alone: for k'
    different from k, Get(k') (values and found flag) and ContainsKey(k')
    are the same before and after. *)
Theorem C8_other_keys_untouched mm key value key' :
  key' ≠ key →
  Get (Put mm key value) key' = Get mm key' ∧
  ContainsKey (Put mm key value) key' = ContainsKey mm key' ∧
  Get (Remove mm key value) key' = Get mm key' ∧
  ContainsKey (Remove mm key value) key' = ContainsKey mm key'.
Proof.
  intros Hne. rewrite !Get_eq. unfold ContainsKey, read_set, read_found.
  rewrite Put_lookup_ne, Remove_lookup_ne by done. done.
Qed.

(** C10: PutAll(k, vs) with an empty vs changes nothing: the multimap is
    the same, so no entry for k appears and ContainsKey, Size and every
    other observation are as before. *)
Theorem C10_PutAll_nil mm key :
  PutAll mm key [] = mm ∧
  ContainsKey (PutAll mm key []) key = ContainsKey mm key ∧
  Size (PutAll mm key []) = Size mm.
Proof. done. Qed.

(** *** The flattening views *)

Lemma range_loop_ext {S X} (f g : S → X → option S) (l : list X) :
  (∀ st x, f st x = g st x) → ∀ st, range_loop f st l = range_loop g st l.
Proof.
  intros Hfg. induction l as [|x l IH]; intros st; simpl; [done|].
  rewrite Hfg. destruct (g st x); simpl; auto.
Qed.

Lemma flatten_fmap {A} (f : K → V → A) (l : list (K * gset V)) :
  (p ← l; f p.1 <$> elements p.2)
  = (λ q, f q.1 q.2) <$> (p ← l; (λ value, (p.1, value)) <$> elements p.2).
Proof.
  induction l as [|p l IH]; [done|].
  rewrite !bind_cons, fmap_app, IH. f_equal.
  rewrite <- list_fmap_compose. done.
Qed.

Lemma flatten_length (l : list (K * gset V)) :
  length (p ← l; (λ value, (p.1, value)) <$> elements p.2)
  = sum_list_with (λ p, size p.2) l.
Proof.
  induction l as [|p l IH]; [done|].
  rewrite bind_cons, length_app, length_fmap, IH. done.
Qed.

Lemma pairs_of_length mm : length (pairs_of mm) = Size mm.
Proof. unfold pairs_of. by rewrite flatten_length, Size_sum. Qed.

Lemma elem_of_pairs_of mm key value :
  (key, value) ∈ pairs_of mm ↔ Contains mm key value = true.
Proof.
  unfold pairs_of. rewrite list_elem_of_bind, Contains_true. split.
  - intros ([key' set] & Hin & Hp). cbn [fst snd] in Hin.
    apply list_elem_of_fmap in Hin as (value' & [= -> ->] & Hin).
    apply elem_of_map_to_list in Hp. apply elem_of_elements in Hin. eauto.
  - intros (set & Hset & Hin). exists (key, set). split.
    + cbn [fst snd]. apply list_elem_of_fmap. exists value.
      split; [done|]. by apply elem_of_elements.
    + by apply elem_of_map_to_list.
Qed.

Lemma NoDup_pairs_of mm : NoDup (pairs_of mm).
Proof.
  unfold pairs_of. apply NoDup_bind.
  - intros [k1 s1] [k2 s2] [key value] Hp1 Hp2 Hin1 Hin2. cbn [fst snd] in *.
    apply list_elem_of_fmap in Hin1 as (v1 & [= -> ->] & _).
    apply list_elem_of_fmap in Hin2 as (v2 & [= -> ->] & _).
    f_equal. exact (map_to_list_unique (m mm) _ _ _ Hp1 Hp2).
  - intros [key set] _. cbn [fst snd]. apply NoDup_fmap_2.
    + intros v1 v2 [= ->]. done.
    + apply NoDup_elements.
  - apply NoDup_map_to_list.
Qed.

(** Every flattening loop fills its slice of length [Size] exactly. *)
Lemma flatten_loop {A} `{!Inhabited A} (f : K → V → A) mm :
  range_loop
    (λ st p, range_loop (λ st' value, assign_next st' (f p.1 value)) st
               (elements p.2))
    (make (Size mm), 0) (map_to_list (m mm))
  = Some ((λ q, f q.1 q.2) <$> pairs_of mm, Size mm).
Proof.
  rewrite (range_loop_ext _
    (λ st p, range_loop assign_next st (f p.1 <$> elements p.2)))
    by (intros st p; apply range_loop_map).
  rewrite (range_loop_nested (λ p, f p.1 <$> elements p.2)).
  rewrite flatten_fmap. fold (pairs_of mm).
  rewrite <- (pairs_of_length mm).
  rewrite <- (length_fmap (λ q, f q.1 q.2) (pairs_of mm)).
  apply range_loop_make.
Qed.

Lemma Keys_eq mm : Keys mm = Some ((pairs_of mm).*1).
Proof. unfold Keys. by rewrite (flatten_loop (λ key _, key) mm). Qed.

Lemma Values_eq mm : Values mm = Some ((pairs_of mm).*2).
Proof.
  unfold Values.
  rewrite (range_loop_ext _
    (λ st p, range_loop (λ st' value, assign_next st' value) st (elements p.2)))
    by done.
  by rewrite (flatten_loop (λ _ value, value) mm).
Qed.

Lemma Entries_eq mm :
  Entries mm = Some ((λ q, multimap.mkEntry q.1 q.2) <$> pairs_of mm).
Proof. unfold Entries. by rewrite (flatten_loop multimap.mkEntry mm). Qed.

Lemma filter_fst_length {A B} `{EqDecision A} (a : A) (l : list (A * B)) :
  length (filter (λ a', a' = a) (l.*1)) = length (filter (λ q, q.1 = a) l).
Proof.
  induction l as [|q l IH]; [done|]. rewrite fmap_cons, !filter_cons.
  destruct (decide (q.1 = a)); simpl; by rewrite IH.
Qed.

Lemma pairs_of_key_count mm key :
  length (filter (λ q, q.1 = key) (pairs_of mm)) = size (read_set mm key).
Proof.
  change (size (read_set mm key)) with (length (elements (read_set mm key))).
  rewrite <- (length_fmap (λ value, (key, value))).
  apply Permutation_length, NoDup_Permutation.
  - apply NoDup_filter, NoDup_pairs_of.
  - apply NoDup_fmap_2; [|apply NoDup_elements]. by intros v1 v2 [= ->].
  - intros [key' value]. rewrite list_elem_of_filter, list_elem_of_fmap.
    rewrite elem_of_pairs_of, Contains_true. cbn [fst]. split.
    + intros (-> & set & Hset & Hin). exists value. split; [done|].
      apply elem_of_elements. by rewrite (read_set_Some _ _ _ Hset).
    + intros (value' & [= -> ->] & Hin%elem_of_elements). split; [done|].
      unfold read_set in Hin. destruct (m mm !! key) as [set|]; [eauto|].
      by apply not_elem_of_empty in Hin.
Qed.

(** C4: Size is the sum of the sizes of the value sets, and Entries, Keys
    and Values each return (without panicking) a slice of exactly Size
    elements: Entries holds one entry per stored pair, Keys the key of each
    of them (a key once per value under it), Values the value of each. *)
Theorem C4_Size_and_views mm :
  Size mm = sum_list_with (λ p, size p.2) (map_to_list (m mm)) ∧
  ∃ entries keys values,
    Entries mm = Some entries ∧ Keys mm = Some keys ∧ Values mm = Some values ∧
    Size mm = length entries ∧
    length entries = length keys ∧
    length keys = length values ∧
    keys = multimap.Key <$> entries ∧
    values = multimap.Value <$> entries ∧
    NoDup entries ∧
    (∀ key value,
       multimap.mkEntry key value ∈ entries ↔ Contains mm key value = true) ∧
    (∀ key, length (filter (λ key', key' = key) keys) = size (read_set mm key)).
Proof.
  split; [apply Size_sum|].
  eexists _, _, _. rewrite Entries_eq, Keys_eq, Values_eq.
  do 3 (split; [reflexivity|]).
  rewrite !length_fmap, pairs_of_length, <- !list_fmap_compose.
  do 5 (split; [done|]). split; [|split].
  - apply NoDup_fmap_2; [|apply NoDup_pairs_of].
    intros [k1 v1] [k2 v2] [= -> ->]. done.
  - intros key value. rewrite <- elem_of_pairs_of, list_elem_of_fmap. split.
    + by intros ([key' value'] & [= -> ->] & Hin).
    + intros Hin. by exists (key, value).
  - intros key. rewrite filter_fst_length. apply pairs_of_key_count.
Qed.

(** *** [PutAll] as a set union *)

Lemma PutAll_m mm key values :
  values ≠ [] →
  m (PutAll mm key values)
  = <[key := list_to_set values ∪ read_set mm key]> (m mm).
Proof.
  revert mm. induction values as [|value values IH]; intros mm Hne; [done|].
  rewrite PutAll_cons. destruct values as [|value' values].
  - cbn [PutAll foldl]. rewrite Put_m. do 2 f_equal.
    rewrite list_to_set_cons. cbn [list_to_set foldr].
    by rewrite union_empty_r_L.
  - rewrite IH by done.
    rewrite (read_set_Some _ _ _ (Put_lookup_eq mm key value)).
    rewrite Put_m, insert_insert_eq. f_equal.
    rewrite (list_to_set_cons value). apply set_eq. intros x.
    rewrite !elem_of_union. tauto.
Qed.

Lemma PutAll_same_elements mm key values values' :
  (∀ value, value ∈ values ↔ value ∈ values') →
  PutAll mm key values = PutAll mm key values'.
Proof.
  intros Hsame. destruct values as [|v values], values' as [|v' values'].
  - done.
  - exfalso. eapply not_elem_of_nil, Hsame. left.
  - exfalso. eapply not_elem_of_nil, Hsame. left.
  - apply MultiMap_eq. rewrite !PutAll_m by done. do 2 f_equal.
    apply set_eq. intros x. by rewrite !elem_of_list_to_set.
Qed.

Lemma PutAll_Contains mm key values value :
  Contains (PutAll mm key values) key value = true
  ↔ value ∈ values ∨ Contains mm key value = true.
Proof.
  destruct (decide (values = [])) as [->|Hne].
  - cbn [PutAll foldl]. split; [auto|]. intros [Hin|]; [|done].
    by apply not_elem_of_nil in Hin.
  - rewrite !Contains_true, PutAll_m, lookup_insert_eq by done. split.
    + intros (set & [= <-] & [Hin|Hin]%elem_of_union).
      * left. by apply elem_of_list_to_set in Hin.
      * right. unfold read_set in Hin.
        destruct (m mm !! key) as [set|]; [eauto|].
        by apply not_elem_of_empty in Hin.
    + intros Hor. eexists. split; [done|]. apply elem_of_union.
      destruct Hor as [Hin|(set & Hset & Hin)].
      * left. by apply elem_of_list_to_set.
      * right. by rewrite (read_set_Some _ _ _ Hset).
Qed.

Lemma PutAll_spec mm key values values' :
  PutAll mm key [] = mm ∧
  (∀ value,
     PutAll mm key (value :: values) = PutAll (Put mm key value) key values) ∧
  (values ≡ₚ values' → PutAll mm key values = PutAll mm key values') ∧
  PutAll mm key (remove_dups values) = PutAll mm key values ∧
  (∀ value, Contains (PutAll mm key values) key value = true
            ↔ value ∈ values ∨ Contains mm key value = true).
Proof.
  split; [done|]. split; [done|]. split; [|split].
  - intros Hperm. apply PutAll_same_elements. intros value. by rewrite Hperm.
  - apply PutAll_same_elements. intros value. apply elem_of_remove_dups.
  - intros value. apply PutAll_Contains.
Qed.

(** *** Reading *)

(** C6: Get on an absent key returns an empty slice and found=false; on a
    present key it returns found=true and a slice holding exactly the values
    of the key's set, each once. *)
Theorem C6_Get mm key :
  (m mm !! key = None → Get mm key = Some ([], false)) ∧
  (∀ set, m mm !! key = Some set →
     ∃ values, Get mm key = Some (values, true) ∧
       NoDup values ∧ length values = size set ∧
       ∀ value, value ∈ values ↔ value ∈ set).
Proof.
  rewrite Get_eq. split.
  - intros Hnone. rewrite (read_set_None _ _ Hnone), elements_empty.
    by rewrite (proj2 (read_found_false mm key) Hnone).
  - intros set Hset. exists (elements set).
    rewrite (read_set_Some _ _ _ Hset).
    rewrite (proj2 (read_found_true mm key)) by eauto.
    split; [done|]. split; [apply NoDup_elements|]. split; [done|].
    intros value. apply elem_of_elements.
Qed.

Lemma ContainsValue_loop_true (l : list (K * gset V)) value :
  ContainsValue_loop l value = true ↔ ∃ key set, (key, set) ∈ l ∧ value ∈ set.
Proof.
  induction l as [|[key set] l IH]; simpl.
  - split; [done|]. intros (? & ? & Hin & _). by apply not_elem_of_nil in Hin.
  - case_decide as Hin.
    + split; [|done]. intros _. exists key, set. split; [left|done].
    + rewrite IH. split.
      * intros (key' & set' & Hl & Hv). exists key', set'. split; [by right|done].
      * intros (key' & set' & Hl & Hv). exists key', set'. split; [|done].
        apply elem_of_cons in Hl as [[= -> ->]|Hl]; done.
Qed.

(** C7: Contains(k, v) holds exactly when k is a key and v is in its set,
    so it is false for an absent key; ContainsValue(v) holds exactly when v
    is in the set of some key. *)
Theorem C7_Contains_and_ContainsValue mm key value :
  (Contains mm key value = true ↔ ∃ set, m mm !! key = Some set ∧ value ∈ set) ∧
  (m mm !! key = None → Contains mm key value = false) ∧
  (ContainsValue mm value = true
     ↔ ∃ key' set, m mm !! key' = Some set ∧ value ∈ set).
Proof.
  split; [apply Contains_true|]. split.
  - intros Hnone. apply Contains_false. rewrite (read_set_None _ _ Hnone).
    apply not_elem_of_empty.
  - unfold ContainsValue. rewrite ContainsValue_loop_true.
    by setoid_rewrite elem_of_map_to_list.
Qed.

Lemma Size_zero_iff mm : no_empty_set mm → Size mm = 0 ↔ m mm = ∅.
Proof.
  intros Hinv. rewrite Size_sum. split.
  - destruct (map_to_list (m mm)) as [|[key set] l] eqn:Hl.
    + intros _. by apply map_to_list_empty_iff.
    + cbn [sum_list_with snd]. intros Hsum. exfalso.
      apply (Hinv key set).
      * apply elem_of_map_to_list. rewrite Hl. left.
      * apply leibniz_equiv, size_empty_iff. lia.
  - intros ->. by rewrite map_to_list_empty.
Qed.

(** C9: in a reachable state the membership observations agree:
    ContainsKey(k) holds iff Get(k) reports found=true, iff Contains(k, v)
    holds for some v; and Empty() holds iff KeySet() is the empty slice. *)
Theorem C9_observations_agree mm key :
  reachable mm →
  (ContainsKey mm key = true ↔ ∃ values, Get mm key = Some (values, true)) ∧
  (ContainsKey mm key = true ↔ ∃ value, Contains mm key value = true) ∧
  (Empty mm = true ↔ KeySet mm = Some []).
Proof.
  intros Hinv%reachable_no_empty_set. split; [|split].
  - rewrite Get_eq. unfold ContainsKey. split.
    + intros ->. eauto.
    + by intros (values & [= _ ->]).
  - split.
    + intros Hfound%read_found_true. by apply has_value.
    + intros (value & (set & Hset & _)%Contains_true).
      apply read_found_true. eauto.
  - unfold Empty. rewrite bool_decide_eq_true, (Size_zero_iff mm Hinv), KeySet_eq.
    rewrite <- map_to_list_empty_iff. split.
    + by intros ->.
    + intros [= Hnil]. by apply fmap_nil_inv in Hnil.
Qed.

End facts.

(** ** The operations on a multimap from strings to integers *)
Section instances.
Local Open Scope Z_scope.
Local Open Scope string_scope.

(** C5: PutAll is Put on each value in order; the result does not depend
    on the order of the input, and repeated values in the input store one
    pair.  From the empty multimap, PutAll("a", [1,1,2]) makes Get("a")
    return found=true with the values {1,2}, and Size 2. *)
Theorem C5_PutAll_set_semantics :
  (∀ `{Countable K, Countable V} (mm : MultiMap K V) key values values',
     PutAll mm key [] = mm ∧
     (∀ value,
        PutAll mm key (value :: values) = PutAll (Put mm key value) key values) ∧
     (values ≡ₚ values' → PutAll mm key values = PutAll mm key values') ∧
     PutAll mm key (remove_dups values) = PutAll mm key values ∧
     (∀ value, Contains (PutAll mm key values) key value = true
               ↔ value ∈ values ∨ Contains mm key value = true)) ∧
  (∃ got,
     Get (PutAll (New : MultiMap string Z) "a" [1; 1; 2]) "a"
       = Some (got, true) ∧
          NoDup got ∧
          list_to_set got = ({[1; 2]} : gset Z) ∧
          Size (PutAll (New : MultiMap string Z) "a" [1; 1; 2]) = 2%nat).
Proof.
  split.
  - intros. apply PutAll_spec.
  - eexists. split; [vm_compute; reflexivity|].
    split; [|split; vm_compute; reflexivity].
    refine (bool_decide_unpack _ _). vm_compute. exact I.
Qed.

Lemma C5_PutAll_witness :
  [1; 2] ≡ₚ [2; 1] ∧
  PutAll (New : MultiMap string Z) "a" [1; 2] = PutAll New "a" [2; 1].
Proof.
  split; [apply perm_swap|].
  apply (proj1 (proj2 (proj2
           (proj1 C5_PutAll_set_semantics _ _ _ _ _ _ New "a" [1; 2] [2; 1])))).
  apply perm_swap.
Defined.

Lemma C1_witness :
  ∃ keys,
    KeySet (Remove (Put (Put (New : MultiMap string Z) "a" 1) "b" 2) "a" 1)
      = Some keys ∧
    ∀ key, key ∈ keys →
      ∃ value, Contains (Remove (Put (Put (New : MultiMap string Z) "a" 1) "b" 2) "a" 1)
                 key value = true.
Proof.
  apply (C1_reachable_keys_have_values
           (Remove (Put (Put (New : MultiMap string Z) "a" 1) "b" 2) "a" 1)).
  apply reach_Remove, reach_Put, reach_Put, reach_New.
Defined.

Lemma C2_witness :
  Contains (Put (New : MultiMap string Z) "a" 1) "a" 1 = true ∧
  Put (Put (New : MultiMap string Z) "a" 1) "a" 1 = Put New "a" 1.
Proof.
  split; [vm_compute; reflexivity|].
  apply (proj1 (proj2 (proj2
           (C2_Put_contains_and_size (Put (New : MultiMap string Z) "a" 1) "a" 1)))).
  vm_compute. reflexivity.
Defined.

(** When the pair is already k's only value, ContainsKey(k) is true before
    Put(k, v); Remove(k, v) and false after: the prior value is not
    restored. *)
Lemma C3_prior_ContainsKey_not_restored :
  reachable (Put (New : MultiMap string Z) "a" 1) ∧
  ContainsKey (Put (New : MultiMap string Z) "a" 1) "a" = true ∧
  ContainsKey (Remove (Put (Put (New : MultiMap string Z) "a" 1) "a" 1) "a" 1) "a"
    = false ∧
  ContainsKey (Remove (Put (Put (New : MultiMap string Z) "a" 1) "a" 1) "a" 1) "a"
    ≠ ContainsKey (Put (New : MultiMap string Z) "a" 1) "a".
Proof.
  split; [apply reach_Put, reach_New|].
  split; [vm_compute; reflexivity|].
  split; [vm_compute; reflexivity|].
  vm_compute. discriminate.
Defined.

Lemma C3_witness :
  ContainsKey (Remove (Put (Put (New : MultiMap string Z) "a" 1) "a" 2) "a" 2) "a"
    = ContainsKey (Put (New : MultiMap string Z) "a" 1) "a"
  ∧ Remove (Put (Put (New : MultiMap string Z) "a" 1) "a" 2) "a" 2 = Put New "a" 1.
Proof.
  apply (proj2 (proj2 (C3_Put_then_Remove (Put (New : MultiMap string Z) "a" 1) "a" 2))).
  - apply reach_Put, reach_New.
  - vm_compute. reflexivity.
Defined.

Lemma C6_witness :
  Get (Put (New : MultiMap string Z) "a" 1) "b" = Some ([], false) ∧
  ∃ values, Get (Put (New : MultiMap string Z) "a" 1) "a" = Some (values, true) ∧
    NoDup values ∧ length values = size ({[1]} : gset Z) ∧
    ∀ value, value ∈ values ↔ value ∈ ({[1]} : gset Z).
Proof.
  split.
  - apply (proj1 (C6_Get (Put (New : MultiMap string Z) "a" 1) "b")).
    vm_compute. reflexivity.
  - apply (proj2 (C6_Get (Put (New : MultiMap string Z) "a" 1) "a")).
    vm_compute. reflexivity.
Defined.

Lemma C7_witness : Contains (Put (New : MultiMap string Z) "a" 1) "b" 1 = false.
Proof.
  apply (proj1 (proj2
           (C7_Contains_and_ContainsValue (Put (New : MultiMap string Z) "a" 1) "b" 1))).
  vm_compute. reflexivity.
Defined.

Lemma C8_witness :
  "b" ≠ "a" ∧
  Get (Put (Put (New : MultiMap string Z) "b" 2) "a" 1) "b"
    = Get (Put (New : MultiMap string Z) "b" 2) "b" ∧
  ContainsKey (Put (Put (New : MultiMap string Z) "b" 2) "a" 1) "b"
    = ContainsKey (Put (New : MultiMap string Z) "b" 2) "b" ∧
  Get (Remove (Put (New : MultiMap string Z) "b" 2) "a" 1) "b"
    = Get (Put (New : MultiMap string Z) "b" 2) "b" ∧
  ContainsKey (Remove (Put (New : MultiMap string Z) "b" 2) "a" 1) "b"
    = ContainsKey (Put (New : MultiMap string Z) "b" 2) "b".
Proof.
  split; [discriminate|].
  apply (C8_other_keys_untouched (Put (New : MultiMap string Z) "b" 2) "a" 1 "b").
  discriminate.
Defined.

Lemma C9_witness :
  (ContainsKey (Put (New : MultiMap string Z) "a" 1) "a" = true
     ↔ ∃ values,
         Get (Put (New : MultiMap string Z) "a" 1) "a" = Some (values, true)) ∧
  (ContainsKey (Put (New : MultiMap string Z) "a" 1) "a" = true
     ↔ ∃ value, Contains (Put (New : MultiMap string Z) "a" 1) "a" value = true) ∧
  (Empty (Put (New : MultiMap string Z) "a" 1) = true
     ↔ KeySet (Put (New : MultiMap string Z) "a" 1) = Some []).
Proof.
  apply (C9_observations_agree (Put (New : MultiMap string Z) "a" 1) "a").
  apply reach_Put, reach_New.
Defined.

End instances.

(** ** Further laws of the operations *)
Section laws.
Context `{CountK : Countable K, CountV : Countable V}.
Context `{!Inhabited K, !Inhabited V}.
Implicit Types (mm : MultiMap K V) (key : K) (value : V) (set : gset V).

Lemma Contains_read_set mm key value :
  Contains mm key value = true ↔ value ∈ read_set mm key.
Proof.
  destruct (Contains mm key value) eqn:Hc.
  - split; [intros _|done]. apply dec_stable. intros Hn.
    apply Contains_false in Hn. congruence.
  - apply Contains_false in Hc. split; [done|]. intros Hin. by destruct Hc.
Qed.

Lemma Put_read_set mm key value key' :
  read_set (Put mm key value) key'
  = if decide (key' = key) then {[value]} ∪ read_set mm key
    else read_set mm key'.
Proof.
  case_decide as Hk.
  - subst key'. apply read_set_Some, Put_lookup_eq.
  - unfold read_set. by rewrite Put_lookup_ne.
Qed.

Lemma Remove_read_set mm key value key' :
  read_set (Remove mm key value) key'
  = if decide (key' = key) then read_set mm key ∖ {[value]}
    else read_set mm key'.
Proof.
  case_decide as Hk.
  - subst key'. unfold read_set at 1. rewrite Remove_lookup_eq.
    case_decide as He; cbn [default id]; by rewrite ?He.
  - unfold read_set. by rewrite Remove_lookup_ne.
Qed.

Lemma RemoveAll_read_set mm key key' :
  read_set (RemoveAll mm key) key'
  = if decide (key' = key) then ∅ else read_set mm key'.
Proof.
  unfold read_set, RemoveAll. cbn [m]. case_decide as Hk.
  - subst key'. by rewrite lookup_delete_eq.
  - by rewrite lookup_delete_ne.
Qed.

(** X1: Put(k, v) adds the pair (k, v) and no other: a pair is contained
    afterwards exactly when it is (k, v) or was contained before. *)
Theorem Put_Contains_iff mm key value key' value' :
  Contains (Put mm key value) key' value' = true
  ↔ (key' = key ∧ value' = value) ∨ Contains mm key' value' = true.
Proof.
  rewrite !Contains_read_set, Put_read_set. case_decide as Hk.
  - subst key'. rewrite elem_of_union, elem_of_singleton. tauto.
  - tauto.
Qed.

(** X2: Remove(k, v) takes away the pair (k, v) and no other: a pair is
    contained afterwards exactly when it was contained before and is not
    (k, v). *)
Theorem Remove_Contains_iff mm key value key' value' :
  Contains (Remove mm key value) key' value' = true
  ↔ Contains mm key' value' = true ∧ ¬ (key' = key ∧ value' = value).
Proof.
  rewrite !Contains_read_set, Remove_read_set. case_decide as Hk.
  - subst key'. rewrite elem_of_difference, elem_of_singleton. tauto.
  - tauto.
Qed.

(** X3: RemoveAll(k) removes the key with all its values and leaves the other
    keys alone: afterwards ContainsKey(k) is false, Get(k) returns an empty
    slice with found=false, and a pair is contained exactly when it was
    contained before under another key. *)
Theorem RemoveAll_effect mm key :
  ContainsKey (RemoveAll mm key) key = false ∧
  Get (RemoveAll mm key) key = Some ([], false) ∧
  (∀ key' value',
     Contains (RemoveAll mm key) key' value' = true
     ↔ key' ≠ key ∧ Contains mm key' value' = true) ∧
  (∀ key', ContainsKey (RemoveAll mm key) key' = true
           ↔ key' ≠ key ∧ ContainsKey mm key' = true).
Proof.
  assert (Hfound : read_found (RemoveAll mm key) key = false).
  { apply read_found_false. unfold RemoveAll. cbn [m]. apply lookup_delete_eq. }
  split; [exact Hfound|]. split; [|split].
  - rewrite Get_eq, Hfound, RemoveAll_read_set, decide_True by done.
    by rewrite elements_empty.
  - intros key' value'. rewrite !Contains_read_set, RemoveAll_read_set.
    case_decide as Hk; [|tauto]. split; [|tauto].
    intros Hin. by apply not_elem_of_empty in Hin.
  - intros key'. unfold ContainsKey. rewrite !read_found_true.
    unfold RemoveAll. cbn [m]. destruct (decide (key' = key)) as [->|Hne].
    + rewrite lookup_delete_eq. split; [by intros [? ?]|tauto].
    + rewrite lookup_delete_ne by done. tauto.
Qed.

(** *** How [Size] moves *)

Lemma Size_split mm key :
  Size mm = size (read_set mm key) + Size (mkMultiMap (delete key (m mm))).
Proof.
  destruct mm as [g]. unfold read_set. cbn [m].
  destruct (g !! key) as [set|] eqn:Hk; cbn [default id].
  - by apply Size_delete.
  - by rewrite delete_id, size_empty.
Qed.

Lemma delete_same_elsewhere (g1 g2 : gmap K (gset V)) key :
  (∀ key', key' ≠ key → g1 !! key' = g2 !! key') → delete key g1 = delete key g2.
Proof.
  intros Hsame. apply map_eq. intros key'.
  destruct (decide (key' = key)) as [->|Hne].
  - by rewrite !lookup_delete_eq.
  - rewrite !lookup_delete_ne by done. by apply Hsame.
Qed.

(** Two states that differ at most under [key] differ in [Size] by the
    sizes of the sets under [key]. *)
Lemma Size_change_at mm1 mm2 key :
  (∀ key', key' ≠ key → m mm1 !! key' = m mm2 !! key') →
  Size mm1 + size (read_set mm2 key) = Size mm2 + size (read_set mm1 key).
Proof.
  intros Hsame. rewrite (Size_split mm1 key), (Size_split mm2 key).
  rewrite (delete_same_elsewhere (m mm1) (m mm2) key Hsame). lia.
Qed.

Lemma PutAll_read_set mm key values :
  read_set (PutAll mm key values) key = list_to_set values ∪ read_set mm key.
Proof.
  destruct (decide (values = [])) as [->|Hne].
  - cbn [PutAll foldl list_to_set foldr]. by rewrite union_empty_l_L.
  - apply read_set_Some. rewrite PutAll_m by done. apply lookup_insert_eq.
Qed.

Lemma size_list_to_set_le (values : list V) :
  size (list_to_set values : gset V) ≤ length values.
Proof.
  apply submseteq_length, NoDup_submseteq; [apply NoDup_elements|].
  intros value. by rewrite elem_of_elements, elem_of_list_to_set.
Qed.

(** X4: Remove(k, v) lowers Size by exactly one when the pair was stored and
    leaves it as it was otherwise. *)
Theorem Remove_Size mm key value :
  Size mm = (if Contains mm key value
             then S (Size (Remove mm key value))
             else Size (Remove mm key value)).
Proof.
  pose proof (Size_change_at (Remove mm key value) mm key) as Hsz.
  rewrite Remove_read_set, decide_True in Hsz by done.
  specialize (Hsz (λ key' Hne, Remove_lookup_ne mm key value key' Hne)).
  destruct (Contains mm key value) eqn:Hc.
  - apply Contains_read_set in Hc.
    rewrite size_difference, size_singleton in Hsz
      by (by apply singleton_subseteq_l).
    assert (size (read_set mm key) ≠ 0).
    { apply size_non_empty_iff. intros Hempty. apply Hempty in Hc.
      by apply not_elem_of_empty in Hc. }
    lia.
  - apply Contains_false in Hc.
    rewrite difference_disjoint_L in Hsz by (by apply disjoint_singleton_r).
    lia.
Qed.

(** X5: RemoveAll(k) lowers Size by exactly the number of values Get(k)
    returned before the call. *)
Theorem RemoveAll_Size mm key :
  ∃ values found,
    Get mm key = Some (values, found) ∧
    Size mm = length values + Size (RemoveAll mm key).
Proof.
  eexists _, _. split; [apply Get_eq|]. apply Size_split.
Qed.

(** X6: PutAll(k, vs) raises Size by the number of distinct values of vs that
    k did not have yet; so by at most the length of vs, and Size never
    drops. *)
Theorem PutAll_Size mm key values :
  Size (PutAll mm key values)
    = Size mm + size (list_to_set values ∖ read_set mm key) ∧
  Size mm ≤ Size (PutAll mm key values) ≤ Size mm + length values.
Proof.
  pose proof (Size_change_at (PutAll mm key values) mm key) as Hsz.
  rewrite PutAll_read_set in Hsz.
  specialize (Hsz (λ key' Hne, PutAll_lookup_ne mm key values key' Hne)).
  rewrite (union_comm_L _ (read_set mm key)), size_union_alt in Hsz.
  assert (Hle : size (list_to_set values ∖ read_set mm key : gset V)
                ≤ length values).
  { etrans; [apply subseteq_size, subseteq_difference_l; reflexivity|].
    apply size_list_to_set_le. }
  lia.
Qed.

(** *** How the operations compose *)

Lemma Put_lookup mm key value key' :
  m (Put mm key value) !! key'
  = if decide (key' = key) then Some ({[value]} ∪ read_set mm key)
    else m mm !! key'.
Proof.
  case_decide as Hk; [subst; apply Put_lookup_eq | by apply Put_lookup_ne].
Qed.

Lemma Remove_lookup mm key value key' :
  m (Remove mm key value) !! key'
  = if decide (key' = key)
    then (if decide (read_set mm key ∖ {[value]} = ∅) then None
          else Some (read_set mm key ∖ {[value]}))
    else m mm !! key'.
Proof.
  case_decide as Hk; [subst; apply Remove_lookup_eq | by apply Remove_lookup_ne].
Qed.

Lemma difference_twice_comm (X Y Z : gset V) : X ∖ Y ∖ Z = X ∖ Z ∖ Y.
Proof. apply set_eq. intros x. rewrite !elem_of_difference. tauto. Qed.

Lemma union_twice_comm (X Y Z : gset V) : X ∪ (Y ∪ Z) = Y ∪ (X ∪ Z).
Proof. apply set_eq. intros x. rewrite !elem_of_union. tauto. Qed.

(** A state without empty sets is determined by the sets read under its
    keys. *)
Lemma no_empty_set_ext mm1 mm2 :
  no_empty_set mm1 → no_empty_set mm2 →
  (∀ key, read_set mm1 key = read_set mm2 key) → mm1 = mm2.
Proof.
  intros Hinv1 Hinv2 Hsame. apply MultiMap_eq, map_eq. intros key.
  specialize (Hsame key). unfold read_set in Hsame.
  destruct (m mm1 !! key) as [s1|] eqn:H1, (m mm2 !! key) as [s2|] eqn:H2;
    cbn [default id] in Hsame.
  - by rewrite Hsame.
  - by destruct (Hinv1 key s1 H1).
  - by destruct (Hinv2 key s2 H2).
  - done.
Qed.

(** X7: Two Puts give the same multimap in either order. *)
Theorem Put_commute mm key1 value1 key2 value2 :
  Put (Put mm key1 value1) key2 value2 = Put (Put mm key2 value2) key1 value1.
Proof.
  apply MultiMap_eq, map_eq. intros key.
  rewrite !Put_lookup, !Put_read_set.
  repeat case_decide; subst; try congruence.
  by rewrite union_twice_comm.
Qed.

(** X8: Two Removes give the same multimap in either order. *)
Theorem Remove_commute mm key1 value1 key2 value2 :
  Remove (Remove mm key1 value1) key2 value2
  = Remove (Remove mm key2 value2) key1 value1.
Proof.
  apply MultiMap_eq, map_eq. intros key.
  rewrite !Remove_lookup, !Remove_read_set.
  destruct (decide (key1 = key2)) as [<-|Hne].
  - rewrite !(decide_True (P := key1 = key1)) by done.
    rewrite (difference_twice_comm _ {[value1]}). by repeat case_decide.
  - rewrite ?(decide_False (P := key2 = key1)) by congruence.
    rewrite ?(decide_False (P := key1 = key2)) by congruence.
    destruct (decide (key = key2)), (decide (key = key1)); congruence.
Qed.

(** X9: A second Remove(k, v) changes nothing, and in a reachable state
    Remove(k, v) of a pair that is not stored changes nothing at all. *)
Theorem Remove_absent mm key value :
  Remove (Remove mm key value) key value = Remove mm key value ∧
  (reachable mm → Contains mm key value = false → Remove mm key value = mm).
Proof.
  split.
  - apply MultiMap_eq, map_eq. intros key'.
    destruct (decide (key' = key)) as [->|Hne]; [|by rewrite Remove_lookup_ne].
    rewrite Remove_lookup_eq, Remove_read_set.
    rewrite (decide_True (P := key = key)) by done.
    assert (read_set mm key ∖ {[value]} ∖ {[value]}
            = read_set mm key ∖ {[value]}) as ->.
    { apply set_eq. intros x. rewrite !elem_of_difference. tauto. }
    by rewrite Remove_lookup_eq.
  - intros Hreach Hc%Contains_false.
    apply no_empty_set_ext;
      [by apply Remove_no_empty_set, reachable_no_empty_set
      |by apply reachable_no_empty_set|].
    intros key'. rewrite Remove_read_set. case_decide; [subst key'|done].
    by apply difference_disjoint_L, disjoint_singleton_r.
Qed.

(** X10: Removing a stored pair and putting it back restores the multimap. *)
Theorem Remove_then_Put mm key value :
  Contains mm key value = true → Put (Remove mm key value) key value = mm.
Proof.
  intros (set & Hset & Hin)%Contains_true. apply MultiMap_eq, map_eq.
  intros key'. rewrite Put_lookup, Remove_read_set. case_decide as Hk.
  - subst key'. rewrite decide_True by done.
    rewrite (read_set_Some _ _ _ Hset), Hset. f_equal.
    apply set_eq. intros x.
    rewrite elem_of_union, elem_of_difference, elem_of_singleton.
    split; [intros [->|[? _]]; done|].
    intros Hx. destruct (decide (x = value)); tauto.
  - by rewrite Remove_lookup_ne.
Qed.

Lemma Remove_each_no_empty_set mm key values :
  no_empty_set mm →
  no_empty_set (foldl (λ mm' value, Remove mm' key value) mm values).
Proof.
  revert mm. induction values as [|value values IH]; intros mm Hinv; [done|].
  cbn [foldl]. by apply IH, Remove_no_empty_set.
Qed.

Lemma Remove_each_read_set mm key values key' :
  read_set (foldl (λ mm' value, Remove mm' key value) mm values) key'
  = if decide (key' = key) then read_set mm key ∖ list_to_set values
    else read_set mm key'.
Proof.
  revert mm. induction values as [|value values IH]; intros mm; cbn [foldl].
  - case_decide; [subst key'|done]. cbn [list_to_set foldr].
    symmetry. apply difference_disjoint_L, disjoint_empty_r.
  - rewrite IH, !Remove_read_set. case_decide as Hk; [|done].
    rewrite decide_True by done. rewrite list_to_set_cons.
    apply set_eq. intros x.
    rewrite !elem_of_difference, elem_of_union. tauto.
Qed.

(** X11: In a reachable state, removing one by one the values that Get(k)
    returns is the same as RemoveAll(k). *)
Theorem RemoveAll_as_Removes mm key values found :
  reachable mm →
  Get mm key = Some (values, found) →
  foldl (λ mm' value, Remove mm' key value) mm values = RemoveAll mm key.
Proof.
  intros Hinv%reachable_no_empty_set. rewrite Get_eq. intros [= <- _].
  apply no_empty_set_ext.
  - by apply Remove_each_no_empty_set.
  - by apply RemoveAll_no_empty_set.
  - intros key'. rewrite Remove_each_read_set, RemoveAll_read_set.
    case_decide; [|done]. rewrite list_to_set_elements_L.
    apply difference_diag_L.
Qed.

(** X12: Putting back the values that Get(k) returns changes nothing. *)
Theorem PutAll_of_Get mm key values found :
  Get mm key = Some (values, found) → PutAll mm key values = mm.
Proof.
  rewrite Get_eq. intros [= <- _].
  destruct (decide (elements (read_set mm key) = [])) as [Hnil|Hne].
  - by rewrite Hnil.
  - apply MultiMap_eq. rewrite PutAll_m by done.
    rewrite list_to_set_elements_L, union_idemp_L.
    apply insert_id. unfold read_set in *.
    destruct (m mm !! key) as [set|]; [done|].
    cbn [default id] in Hne. by rewrite elements_empty in Hne.
Qed.

(** X13: Two reachable multimaps that contain the same pairs are the same
    multimap. *)
Theorem reachable_ext mm1 mm2 :
  reachable mm1 → reachable mm2 →
  (∀ key value, Contains mm1 key value = Contains mm2 key value) →
  mm1 = mm2.
Proof.
  intros Hinv1%reachable_no_empty_set Hinv2%reachable_no_empty_set Hsame.
  apply no_empty_set_ext; [done..|]. intros key. apply set_eq. intros value.
  by rewrite <- !Contains_read_set, Hsame.
Qed.

Lemma no_empty_set_reachable (g : gmap K (gset V)) :
  no_empty_set (mkMultiMap g) → reachable (mkMultiMap g).
Proof.
  induction g as [|key set g Hnone IH] using map_ind; intros Hinv.
  - apply reach_New.
  - assert (Hset : set ≠ ∅).
    { apply (Hinv key). cbn [m]. apply lookup_insert_eq. }
    assert (Hg : no_empty_set (mkMultiMap g)).
    { intros key' set' Hk. apply (Hinv key'). cbn [m] in *.
      rewrite lookup_insert_ne; [done|]. intros ->. congruence. }
    assert (Hne : elements set ≠ []).
    { intros Hnil. by apply Hset, leibniz_equiv, elements_empty_iff. }
    replace (mkMultiMap (<[key:=set]> g))
      with (PutAll (mkMultiMap g) key (elements set)).
    + by apply reach_PutAll, IH.
    + apply MultiMap_eq. rewrite PutAll_m by done. cbn [m].
      rewrite list_to_set_elements_L.
      by rewrite (read_set_None (mkMultiMap g) key Hnone), union_empty_r_L.
Qed.

(** X14: The states reachable from the empty multimap by the public operations
    are exactly those in which no key is stored with an empty set. *)
Theorem reachable_iff_no_empty_set mm :
  reachable mm ↔ ∀ key set, m mm !! key = Some set → set ≠ ∅.
Proof.
  split; [apply reachable_no_empty_set|].
  destruct mm as [g]. apply no_empty_set_reachable.
Qed.

(** *** What the views list *)

(** X15: KeySet returns every key of the map exactly once: it has no repeated
    element and holds a key exactly when ContainsKey reports it. *)
Theorem KeySet_distinct_keys mm :
  ∃ keys, KeySet mm = Some keys ∧ NoDup keys ∧
    ∀ key, key ∈ keys ↔ ContainsKey mm key = true.
Proof.
  eexists. split; [apply KeySet_eq|]. split; [apply NoDup_fst_map_to_list|].
  intros key. unfold ContainsKey. rewrite read_found_true.
  apply elem_of_KeySet_list.
Qed.

Lemma elem_of_Keys_list mm key :
  key ∈ (pairs_of mm).*1 ↔ ∃ value, Contains mm key value = true.
Proof.
  rewrite list_elem_of_fmap. split.
  - intros ([key' value] & -> & Hin). exists value. by apply elem_of_pairs_of.
  - intros [value Hc]. exists (key, value). split; [done|].
    by apply elem_of_pairs_of.
Qed.

Lemma count_le_sizes (l : list (K * gset V)) :
  (∀ p, p ∈ l → p.2 ≠ ∅) → length l ≤ sum_list_with (λ p, size p.2) l.
Proof.
  induction l as [|p l IH]; intros Hne; [done|]. cbn [length sum_list_with].
  assert (size p.2 ≠ 0).
  { intros Hz. apply (Hne p); [left|]. by apply leibniz_equiv, size_empty_iff. }
  assert (length l ≤ sum_list_with (λ p, size p.2) l).
  { apply IH. intros q Hq. apply Hne. by right. }
  lia.
Qed.

(** X16: In a reachable state Keys and KeySet list the same keys, and KeySet is
    never the longer of the two. *)
Theorem Keys_and_KeySet mm :
  reachable mm →
  ∃ keys keyset, Keys mm = Some keys ∧ KeySet mm = Some keyset ∧
    (∀ key, key ∈ keys ↔ key ∈ keyset) ∧
    length keyset ≤ length keys ∧ length keys = Size mm.
Proof.
  intros Hinv%reachable_no_empty_set.
  eexists _, _. split; [apply Keys_eq|]. split; [apply KeySet_eq|].
  split; [|split].
  - intros key. rewrite elem_of_Keys_list, elem_of_KeySet_list. split.
    + intros (value & (set & Hset & _)%Contains_true). eauto.
    + by apply has_value.
  - rewrite !length_fmap, pairs_of_length, Size_sum. apply count_le_sizes.
    intros [key set] Hin%elem_of_map_to_list. by apply (Hinv key).
  - by rewrite length_fmap, pairs_of_length.
Qed.

(** X17: Values holds a value exactly when ContainsValue reports it, which is
    exactly when some key contains it. *)
Theorem Values_and_ContainsValue mm :
  ∃ values, Values mm = Some values ∧
    ∀ value,
      (value ∈ values ↔ ContainsValue mm value = true) ∧
      (ContainsValue mm value = true ↔ ∃ key, Contains mm key value = true).
Proof.
  eexists. split; [apply Values_eq|]. intros value.
  assert (Hcv : ContainsValue mm value = true
                ↔ ∃ key, Contains mm key value = true).
  { unfold ContainsValue. rewrite ContainsValue_loop_true. split.
    - intros (key & set & Hin%elem_of_map_to_list & Hv). exists key.
      apply Contains_true. eauto.
    - intros (key & (set & Hset & Hv)%Contains_true). exists key, set.
      split; [by apply elem_of_map_to_list|done]. }
  split; [|exact Hcv]. rewrite Hcv, list_elem_of_fmap. split.
  - intros ([key value'] & -> & Hin). exists key. by apply elem_of_pairs_of.
  - intros [key Hc]. exists (key, value). split; [done|].
    by apply elem_of_pairs_of.
Qed.

(** X18: Empty reports true exactly when no pair is contained, and exactly when
    Entries returns the empty slice. *)
Theorem Empty_iff mm :
  (Empty mm = true ↔ ∀ key value, Contains mm key value = false) ∧
  (Empty mm = true ↔ Entries mm = Some []).
Proof.
  unfold Empty. rewrite bool_decide_eq_true, <- pairs_of_length, Entries_eq.
  split; split.
  - intros Hnil%nil_length_inv key value. apply not_true_is_false.
    rewrite <- elem_of_pairs_of, Hnil. apply not_elem_of_nil.
  - intros Hnone. replace (pairs_of mm) with (@nil (K * V)); [done|].
    symmetry. apply elem_of_nil_inv. intros [key value].
    rewrite elem_of_pairs_of, Hnone. done.
  - by intros ->%nil_length_inv.
  - intros [= Hnil]. apply fmap_nil_inv in Hnil. by rewrite Hnil.
Qed.

(** X19: Clear gives the empty multimap whatever was stored: the same state as
    New, with Size 0, Empty true, every view empty and nothing found. *)
Theorem Clear_effect mm :
  Clear mm = New ∧
  Size (Clear mm) = 0 ∧ Empty (Clear mm) = true ∧
  KeySet (Clear mm) = Some [] ∧ Keys (Clear mm) = Some [] ∧
  Values (Clear mm) = Some [] ∧ Entries (Clear mm) = Some [] ∧
  (∀ key, Get (Clear mm) key = Some ([], false)) ∧
  (∀ key value, Contains (Clear mm) key value = false) ∧
  (∀ value, ContainsValue (Clear mm) value = false).
Proof.
  assert (Hpairs : pairs_of (Clear mm) = []).
  { unfold pairs_of, Clear. cbn [m]. by rewrite map_to_list_empty. }
  assert (Hsize : Size (Clear mm) = 0) by (by rewrite <- pairs_of_length, Hpairs).
  split; [done|]. split; [done|]. split.
  { unfold Empty. by rewrite Hsize. }
  rewrite KeySet_eq, Keys_eq, Values_eq, Entries_eq, Hpairs.
  unfold Clear at 1. cbn [m]. rewrite map_to_list_empty.
  do 4 (split; [done|]). split; [|split].
  - intros key. rewrite Get_eq. unfold read_set, read_found, Clear. cbn [m].
    rewrite lookup_empty. cbn [default id]. rewrite elements_empty.
    rewrite bool_decide_eq_false_2; [done|]. by intros [? ?].
  - intros key value. apply Contains_false. unfold read_set, Clear. cbn [m].
    rewrite lookup_empty. apply not_elem_of_empty.
  - intros value. unfold ContainsValue, Clear. cbn [m].
    by rewrite map_to_list_empty.
Qed.

(** X20: Get(k) right after Put(k, v) finds the key and returns, without
    repetition, v together with the values k had. *)
Theorem Get_after_Put mm key value :
  ∃ values, Get (Put mm key value) key = Some (values, true) ∧
    NoDup values ∧
    ∀ x, x ∈ values ↔ x = value ∨ Contains mm key x = true.
Proof.
  eexists. split.
  - rewrite Get_eq. f_equal. f_equal. apply read_found_true.
    rewrite Put_lookup_eq. eauto.
  - split; [apply NoDup_elements|]. intros x.
    rewrite elem_of_elements, Put_read_set, decide_True by done.
    by rewrite elem_of_union, elem_of_singleton, Contains_read_set.
Qed.

(** X21: Get(k) right after Remove(k, v) returns the other values k had, and
    finds the key exactly when there are any: the emptied key is gone. *)
Theorem Get_after_Remove mm key value :
  ∃ values found, Get (Remove mm key value) key = Some (values, found) ∧
    (∀ x, x ∈ values ↔ x ≠ value ∧ Contains mm key x = true) ∧
    (found = true ↔ values ≠ []).
Proof.
  eexists _, _. split; [apply Get_eq|]. split.
  - intros x. rewrite elem_of_elements, Remove_read_set, decide_True by done.
    rewrite elem_of_difference, elem_of_singleton, Contains_read_set. tauto.
  - rewrite read_found_true, Remove_read_set, decide_True by done.
    rewrite Remove_lookup_eq. case_decide as He.
    + rewrite He, elements_empty. split; [by intros [? ?]|done].
    + split; [|eauto]. intros _ Hnil. by apply He, leibniz_equiv, elements_empty_iff.
Qed.

(** X22: PutAll(k, vs) and RemoveAll(k) leave every other key alone. *)
Theorem PutAll_RemoveAll_other_keys mm key values key' :
  key' ≠ key →
  Get (PutAll mm key values) key' = Get mm key' ∧
  ContainsKey (PutAll mm key values) key' = ContainsKey mm key' ∧
  Get (RemoveAll mm key) key' = Get mm key' ∧
  ContainsKey (RemoveAll mm key) key' = ContainsKey mm key'.
Proof.
  intros Hne. rewrite !Get_eq. unfold ContainsKey, read_set, read_found.
  rewrite PutAll_lookup_ne by done. unfold RemoveAll. cbn [m].
  by rewrite lookup_delete_ne.
Qed.

End laws.

(** ** The laws on a multimap from strings to integers *)
Section law_instances.
Local Open Scope Z_scope.
Local Open Scope string_scope.

Lemma Remove_absent_witness :
  Remove (Put (New : MultiMap string Z) "a" 1) "a" 2 = Put New "a" 1.
Proof.
  apply (proj2 (Remove_absent (Put (New : MultiMap string Z) "a" 1) "a" 2)).
  - apply reach_Put, reach_New.
  - vm_compute. reflexivity.
Defined.

Lemma Remove_then_Put_witness :
  Put (Remove (PutAll (New : MultiMap string Z) "a" [1; 2]) "a" 1) "a" 1
  = PutAll New "a" [1; 2].
Proof.
  apply (Remove_then_Put (PutAll (New : MultiMap string Z) "a" [1; 2]) "a" 1).
  vm_compute. reflexivity.
Defined.

Lemma RemoveAll_as_Removes_witness :
  foldl (λ mm' value, Remove mm' "a" value)
    (Put (PutAll (New : MultiMap string Z) "a" [1; 2]) "b" 3) [2; 1]
  = RemoveAll (Put (PutAll (New : MultiMap string Z) "a" [1; 2]) "b" 3) "a".
Proof.
  apply (RemoveAll_as_Removes
           (Put (PutAll (New : MultiMap string Z) "a" [1; 2]) "b" 3)
           "a" [2; 1] true).
  - apply reach_Put, reach_PutAll, reach_New.
  - vm_compute. reflexivity.
Defined.

Lemma PutAll_of_Get_witness :
  PutAll (PutAll (New : MultiMap string Z) "a" [1; 2]) "a" [2; 1]
  = PutAll New "a" [1; 2].
Proof.
  apply (PutAll_of_Get (PutAll (New : MultiMap string Z) "a" [1; 2])
           "a" [2; 1] true).
  vm_compute. reflexivity.
Defined.

Lemma reachable_ext_witness :
  Put (Put (New : MultiMap string Z) "a" 1) "b" 2
  = Remove (Put (Put (Put (New : MultiMap string Z) "b" 2) "c" 3) "a" 1) "c" 3.
Proof.
  apply (reachable_ext
           (Put (Put (New : MultiMap string Z) "a" 1) "b" 2)
           (Remove (Put (Put (Put (New : MultiMap string Z) "b" 2) "c" 3) "a" 1)
              "c" 3)).
  - apply reach_Put, reach_Put, reach_New.
  - apply reach_Remove, reach_Put, reach_Put, reach_Put, reach_New.
  - intros key value.
    replace (Remove (Put (Put (Put (New : MultiMap string Z) "b" 2) "c" 3) "a" 1)
               "c" 3)
      with (Put (Put (New : MultiMap string Z) "a" 1) "b" 2)
      by (vm_compute; reflexivity).
    reflexivity.
Defined.

Lemma reachable_iff_no_empty_set_witness :
  reachable (Remove (Put (New : MultiMap string Z) "a" 1) "a" 1) ∧
  ∀ key set,
    m (Remove (Put (New : MultiMap string Z) "a" 1) "a" 1) !! key = Some set →
    set ≠ ∅.
Proof.
  assert (Hreach : reachable (Remove (Put (New : MultiMap string Z) "a" 1) "a" 1))
    by apply reach_Remove, reach_Put, reach_New.
  split; [exact Hreach|].
  apply (proj1 (reachable_iff_no_empty_set
                  (Remove (Put (New : MultiMap string Z) "a" 1) "a" 1))).
  exact Hreach.
Defined.

Lemma Keys_and_KeySet_witness :
  ∃ keys keyset,
    Keys (PutAll (New : MultiMap string Z) "a" [1; 2]) = Some keys ∧
    KeySet (PutAll (New : MultiMap string Z) "a" [1; 2]) = Some keyset ∧
    (∀ key, key ∈ keys ↔ key ∈ keyset) ∧
    (length keyset ≤ length keys)%nat ∧
    length keys = Size (PutAll (New : MultiMap string Z) "a" [1; 2]).
Proof.
  apply (Keys_and_KeySet (PutAll (New : MultiMap string Z) "a" [1; 2])).
  apply reach_PutAll, reach_New.
Defined.

Lemma PutAll_RemoveAll_other_keys_witness :
  Get (PutAll (Put (New : MultiMap string Z) "b" 2) "a" [1; 3]) "b"
    = Get (Put (New : MultiMap string Z) "b" 2) "b" ∧
  ContainsKey (PutAll (Put (New : MultiMap string Z) "b" 2) "a" [1; 3]) "b"
    = ContainsKey (Put (New : MultiMap string Z) "b" 2) "b" ∧
  Get (RemoveAll (Put (New : MultiMap string Z) "b" 2) "a") "b"
    = Get (Put (New : MultiMap string Z) "b" 2) "b" ∧
  ContainsKey (RemoveAll (Put (New : MultiMap string Z) "b" 2) "a") "b"
    = ContainsKey (Put (New : MultiMap string Z) "b" 2) "b".
Proof.
  apply (PutAll_RemoveAll_other_keys
           (Put (New : MultiMap string Z) "b" 2) "a" [1; 3] "b").
  discriminate.
Defined.

End law_instances.

End setmultimap.
